(** * SPSCRing: a sequential model of the lock-free single-producer /
    single-consumer ring buffer of [include/SPSCRing.h].

    The C++ class [SPSCRing<T, Size>] is embedded as a record of its data
    members and one Rocq function per member function.  [size_t] and
    [uint64_t] are 64-bit unsigned integers: they are modelled as [Z] with
    the reduction modulo [2^64] written at every arithmetic operation.  The
    atomic loads and stores are modelled by plain reads and writes of the
    record fields: the model is the sequential semantics of the class, with
    whole member-function calls as the unit of interleaving. *)

From stdpp Require Import base list strings.
From Stdlib Require Import ZArith Lia.

Local Open Scope Z_scope.

(** ** Machine integers *)

(** Number of values of a [size_t] / [uint64_t]. *)
Definition word_modulus : Z := 2 ^ 64.

(** Unsigned 64-bit wrap-around. *)
Definition wrap (x : Z) : Z := x mod word_modulus.

(** ** [include/Types.h] and [src/Types.cpp]

    The scoped enumerations have [uint8_t] as underlying type, so an
    object of such a type can hold any code in [0 .. 255], not only the
    named ones: they are modelled by their codes. *)

Module Side.
Definition BUY : Z := 0.
Definition SELL : Z := 1.
End Side.

Module MessageType.
Definition ADD_ORDER : Z := 1.
Definition CANCEL_ORDER : Z := 2.
Definition MODIFY_ORDER : Z := 3.
Definition EXECUTE_ORDER : Z := 4.
Definition TRADE : Z := 5.
Definition HEARTBEAT : Z := 6.
End MessageType.

Module Config.
Definition MESSAGE_RING_SIZE : Z := 65536.
Definition OUTPUT_RING_SIZE : Z := 32768.
End Config.

(** [constexpr bool is_power_of_2(size_t n)]:
    [n > 0 && (n & (n - 1)) == 0]. *)
Definition is_power_of_2 (n : Z) : bool :=
  (0 <? n) && (Z.land n (wrap (n - 1)) =? 0).

(** [message_type_to_string]: a [switch] over the six enumerators with a
    [default] branch. *)
Definition message_type_to_string (type : Z) : string :=
  if type =? MessageType.ADD_ORDER then "ADD_ORDER"%string
  else if type =? MessageType.CANCEL_ORDER then "CANCEL_ORDER"%string
  else if type =? MessageType.MODIFY_ORDER then "MODIFY_ORDER"%string
  else if type =? MessageType.EXECUTE_ORDER then "EXECUTE_ORDER"%string
  else if type =? MessageType.TRADE then "TRADE"%string
  else if type =? MessageType.HEARTBEAT then "HEARTBEAT"%string
  else "UNKNOWN"%string.

(** [side_to_string]: [(side == Side::BUY) ? "BUY" : "SELL"]. *)
Definition side_to_string (side : Z) : string :=
  if side =? Side.BUY then "BUY"%string else "SELL"%string.

(** ** [include/TSCTimer.h] and [src/TSCTimer.cpp]

    Reading the time-stamp counter, the clocks and the conversions to
    [double] are outside the model; what is embedded is the integer
    arithmetic done on the values read. *)

(** [is_tsc_available]: the test [(edx & (1 << 4)) != 0] on the [EDX]
    register that [cpuid] leaf 1 returns. *)
Definition is_tsc_available (edx : Z) : bool :=
  negb (Z.land edx (Z.shiftl 1 4) =? 0).

(** [ScopedTimer::elapsed_cycles]: [timer_.now() - start_cycles_] in
    [uint64_t], for a counter reading [now]; [measure_tsc_frequency]
    computes [end_tsc - start_tsc] the same way. *)
Definition elapsed_cycles (now start_cycles_ : Z) : Z :=
  wrap (now - start_cycles_).

(** [std::sort] on an array of [uint64_t], as insertion sort (the sorted
    array of integers does not depend on the algorithm). *)
Fixpoint sort_insert (x : Z) (l : list Z) : list Z :=
  match l with
  | [] => [x]
  | y :: l' => if x <=? y then x :: l else y :: sort_insert x l'
  end.

Definition std_sort (l : list Z) : list Z := foldr sort_insert [] l.

(** [calibrate], from the measured frequencies on: sort them and take
    the entry at [num_measurements / 2]. *)
Definition num_measurements : Z := 3.

Definition median_freq (frequencies : list Z) : Z :=
  nth (Z.to_nat (num_measurements / 2)) (std_sort frequencies) 0.

(** ** The class *)

Section Ring.

(** The element type [T], its value-initialised object [T{}], and the
    state a [T] is left in once it has been the source of a move
    assignment (the identity for trivially copyable types). *)
Context {T : Type}.
Variable T_default : T.
Variable moved_from : T -> T.

(** The template parameter [Size]. *)
Variable Size : Z.

(** Data members, in declaration order. *)
Record SPSCRing : Type := mkRing {
  head_ : Z;
  tail_ : Z;
  buffer_ : list T;
  push_count_ : Z;
  pop_count_ : Z;
  failed_push_count_ : Z
}.

(** [static constexpr size_t MASK = Size - 1;]  (the class asserts
    [Size >= 2], so the subtraction does not wrap). *)
Definition MASK : Z := Size - 1.

(** [next_index]: [(current + 1) & MASK], the addition in [size_t]. *)
Definition next_index (current : Z) : Z :=
  Z.land (wrap (current + 1)) MASK.

(** [buffer_[i]] read and written.  Indexing the C++ array outside
    [0 .. Size-1] is undefined; here such a read yields [T_default] and
    such a write does nothing.  [reachable_in_bounds] below shows that
    no call made on a queue used since construction indexes out of
    range. *)
Definition slot (b : list T) (i : Z) : T :=
  default T_default (b !! Z.to_nat i).

Definition set_slot (b : list T) (i : Z) (x : T) : list T :=
  <[Z.to_nat i := x]> b.

(** The constructor: both indices and all counters are zero and every
    slot holds [T{}]. *)
Definition SPSCRing_new : SPSCRing :=
  {| head_ := 0;
     tail_ := 0;
     buffer_ := replicate (Z.to_nat Size) T_default;
     push_count_ := 0;
     pop_count_ := 0;
     failed_push_count_ := 0 |}.

(** [bool try_emplace(const T& item)] *)
Definition try_emplace (item : T) (q : SPSCRing) : bool * SPSCRing :=
  let current_head := head_ q in
  let next_head := next_index current_head in
  if next_head =? tail_ q then
    (false,
     {| head_ := head_ q;
        tail_ := tail_ q;
        buffer_ := buffer_ q;
        push_count_ := push_count_ q;
        pop_count_ := pop_count_ q;
        failed_push_count_ := wrap (failed_push_count_ q + 1) |})
  else
    (true,
     {| head_ := next_head;
        tail_ := tail_ q;
        buffer_ := set_slot (buffer_ q) current_head item;
        push_count_ := wrap (push_count_ q + 1);
        pop_count_ := pop_count_ q;
        failed_push_count_ := failed_push_count_ q |}).

(** [bool try_emplace(T&& item)].  The second component is the caller's
    object after the call: untouched when the queue is full, moved-from
    otherwise. *)
Definition try_emplace_move (item : T) (q : SPSCRing)
  : bool * T * SPSCRing :=
  let current_head := head_ q in
  let next_head := next_index current_head in
  if next_head =? tail_ q then
    (false, item,
     {| head_ := head_ q;
        tail_ := tail_ q;
        buffer_ := buffer_ q;
        push_count_ := push_count_ q;
        pop_count_ := pop_count_ q;
        failed_push_count_ := wrap (failed_push_count_ q + 1) |})
  else
    (true, moved_from item,
     {| head_ := next_head;
        tail_ := tail_ q;
        buffer_ := set_slot (buffer_ q) current_head item;
        push_count_ := wrap (push_count_ q + 1);
        pop_count_ := pop_count_ q;
        failed_push_count_ := failed_push_count_ q |}).

(** [bool try_pop(T& item)].  The second component is the caller's
    [item] after the call: untouched when the queue is empty, the value
    moved out of the slot at [tail_] otherwise; that slot is left
    moved-from. *)
Definition try_pop (item : T) (q : SPSCRing) : bool * T * SPSCRing :=
  let current_tail := tail_ q in
  if current_tail =? head_ q then
    (false, item, q)
  else
    let v := slot (buffer_ q) current_tail in
    let next_tail := next_index current_tail in
    (true, v,
     {| head_ := head_ q;
        tail_ := next_tail;
        buffer_ := set_slot (buffer_ q) current_tail (moved_from v);
        push_count_ := push_count_ q;
        pop_count_ := wrap (pop_count_ q + 1);
        failed_push_count_ := failed_push_count_ q |}).

(** Status queries. *)
Definition empty (q : SPSCRing) : bool := head_ q =? tail_ q.

Definition full (q : SPSCRing) : bool := next_index (head_ q) =? tail_ q.

Definition size (q : SPSCRing) : Z :=
  Z.land (wrap (head_ q - tail_ q)) MASK.

Definition capacity (q : SPSCRing) : Z := Size - 1.

(** Performance counters. *)
Definition total_pushes (q : SPSCRing) : Z := push_count_ q.
Definition total_pops (q : SPSCRing) : Z := pop_count_ q.
Definition failed_pushes (q : SPSCRing) : Z := failed_push_count_ q.

(** ** Sequences of calls

    A client is a list of calls; each call runs to completion before the
    next starts.  [Pop item] carries the object the consumer passes by
    reference. *)
Inductive Op : Type :=
| Emplace (item : T)
| EmplaceMove (item : T)
| Pop (item : T).

(** What a call reports to its caller. *)
Inductive Outcome : Type :=
| Accepted (v : T)
| RejectedFull
| Delivered (v : T)
| NothingToPop.

Definition step (o : Op) (q : SPSCRing) : Outcome * SPSCRing :=
  match o with
  | Emplace item =>
      let '(ok, q') := try_emplace item q in
      (if ok then Accepted item else RejectedFull, q')
  | EmplaceMove item =>
      let '(ok, _, q') := try_emplace_move item q in
      (if ok then Accepted item else RejectedFull, q')
  | Pop item =>
      let '(ok, item', q') := try_pop item q in
      (if ok then Delivered item' else NothingToPop, q')
  end.

Fixpoint run (ops : list Op) (q : SPSCRing) : list Outcome * SPSCRing :=
  match ops with
  | [] => ([], q)
  | o :: ops' =>
      let '(r, q1) := step o q in
      let '(rs, q2) := run ops' q1 in
      (r :: rs, q2)
  end.

Definition outcomes (ops : list Op) (q : SPSCRing) : list Outcome :=
  fst (run ops q).

Definition final (ops : list Op) (q : SPSCRing) : SPSCRing :=
  snd (run ops q).

(** The values taken by successful [try_emplace] calls and the values
    handed out by successful [try_pop] calls, in call order. *)
Fixpoint accepted (tr : list Outcome) : list T :=
  match tr with
  | [] => []
  | Accepted v :: tr' => v :: accepted tr'
  | _ :: tr' => accepted tr'
  end.

Fixpoint delivered (tr : list Outcome) : list T :=
  match tr with
  | [] => []
  | Delivered v :: tr' => v :: delivered tr'
  | _ :: tr' => delivered tr'
  end.

(** Number of [try_emplace] calls (either overload) in a client. *)
Fixpoint emplace_calls (ops : list Op) : Z :=
  match ops with
  | [] => 0
  | Pop _ :: ops' => emplace_calls ops'
  | _ :: ops' => 1 + emplace_calls ops'
  end.

(** The values held by the queue, oldest first: the slots from [tail_]
    up to, not including, [head_], going round the buffer. *)
Definition contents (q : SPSCRing) : list T :=
  (fun i : nat => slot (buffer_ q) ((tail_ q + Z.of_nat i) mod Size))
    <$> seq 0 (Z.to_nat (size q)).

(** Every array access a call makes on [q] is within the array. *)
Definition index_in_bounds (q : SPSCRing) : Prop :=
  0 <= head_ q < Z.of_nat (length (buffer_ q)) /\
  0 <= tail_ q < Z.of_nat (length (buffer_ q)).

(** Number of calls that reported a full queue. *)
Fixpoint rejected (tr : list Outcome) : Z :=
  match tr with
  | [] => 0
  | RejectedFull :: tr' => 1 + rejected tr'
  | _ :: tr' => rejected tr'
  end.

(** A [try_emplace] call through either overload. *)
Definition emplace_by (c : bool * T) : Op :=
  if fst c then EmplaceMove (snd c) else Emplace (snd c).

(** A client that pushes and pops one value [n] times over, and one that
    makes [2^64] successful pushes with [2^64 - 1] pops in between. *)
Fixpoint round_trips (n : nat) (x : T) : list Op :=
  match n with
  | O => []
  | S n' => Emplace x :: Pop x :: round_trips n' x
  end.

Definition overflow_client (x : T) : list Op :=
  round_trips (Z.to_nat (word_modulus - 1)) x ++ [Emplace x].

(** Calls of the producer interface and of the consumer interface. *)
Definition is_producer_op (o : Op) : bool :=
  match o with
  | Pop _ => false
  | _ => true
  end.

Definition is_consumer_op (o : Op) : bool := negb (is_producer_op o).

(** A bounded first-in first-out list of at most [Size - 1] values: what
    the ring is meant to implement. *)
Definition fifo_step (o : Op) (l : list T) : Outcome * list T :=
  match o with
  | Emplace x | EmplaceMove x =>
      if Z.of_nat (length l) <? Size - 1 then (Accepted x, l ++ [x])
      else (RejectedFull, l)
  | Pop _ =>
      match l with
      | [] => (NothingToPop, [])
      | v :: l' => (Delivered v, l')
      end
  end.

Fixpoint fifo_run (ops : list Op) (l : list T) : list Outcome * list T :=
  match ops with
  | [] => ([], l)
  | o :: ops' =>
      let '(r, l1) := fifo_step o l in
      let '(rs, l2) := fifo_run ops' l1 in
      (r :: rs, l2)
  end.

(** The representation invariant: [q] is a well-formed ring holding
    exactly the values [l], oldest first. *)
Definition holds (q : SPSCRing) (l : list T) : Prop :=
  0 <= tail_ q < Size /\
  Z.of_nat (length (buffer_ q)) = Size /\
  Z.of_nat (length l) <= Size - 1 /\
  head_ q = (tail_ q + Z.of_nat (length l)) mod Size /\
  forall i : nat, (i < length l)%nat ->
    buffer_ q !! Z.to_nat ((tail_ q + Z.of_nat i) mod Size) = l !! i.

(** ** Arithmetic of the index mask *)

(** A positive number that shares no bit with its predecessor is a power
    of two: this is what the class's first [static_assert] checks. *)
Lemma land_pred_pow2 (n : Z) :
  0 < n -> Z.land n (n - 1) = 0 -> n = 2 ^ Z.log2 n.
Proof.
  intros Hpos Hland.
  destruct (Z.log2_spec n Hpos) as [Hlo Hhi].
  destruct (Z.eq_dec n (2 ^ Z.log2 n)) as [|Hne]; [assumption|exfalso].
  assert (Hp : 0 < 2 ^ Z.log2 n).
  { apply Z.pow_pos_nonneg; [lia|apply Z.log2_nonneg]. }
  assert (Hk : Z.log2 (n - 1) = Z.log2 n).
  { apply Z.log2_unique; [apply Z.log2_nonneg|lia]. }
  assert (Hb1 : Z.testbit n (Z.log2 n) = true) by (apply Z.bit_log2; lia).
  assert (Hb2 : Z.testbit (n - 1) (Z.log2 n) = true).
  { rewrite <- Hk. apply Z.bit_log2. lia. }
  assert (Hb : Z.testbit (Z.land n (n - 1)) (Z.log2 n) = true).
  { rewrite Z.land_spec, Hb1, Hb2. reflexivity. }
  rewrite Hland, Z.bits_0 in Hb. discriminate.
Qed.

(** The two [static_assert]s of the class, and the fact that the
    template argument is itself a [size_t]. *)
Hypothesis Size_pow2 : Z.land Size (Size - 1) = 0.
Hypothesis Size_ge2 : 2 <= Size.
Hypothesis Size_word : Size < word_modulus.

Lemma Size_log2 : Size = 2 ^ Z.log2 Size /\ 1 <= Z.log2 Size <= 63.
Proof.
  assert (HS : Size = 2 ^ Z.log2 Size) by (apply land_pred_pow2; lia).
  split; [exact HS|]. split.
  - apply Z.log2_le_pow2; [lia|]. change (2 ^ 1) with 2. lia.
  - assert (Z.log2 Size < 64); [|lia].
    apply Z.log2_lt_pow2; [lia|]. exact Size_word.
Qed.

Lemma land_MASK (a : Z) : Z.land a MASK = a mod Size.
Proof.
  destruct Size_log2 as [HS [Hk _]]. unfold MASK.
  rewrite HS at 2.
  rewrite <- Z.land_ones by lia.
  f_equal. rewrite Z.ones_equiv. lia.
Qed.

Lemma Size_divides_word : (Size | word_modulus).
Proof.
  destruct Size_log2 as [HS [Hk1 Hk2]].
  exists (2 ^ (64 - Z.log2 Size)).
  rewrite HS at 2. rewrite <- Z.pow_add_r by lia.
  unfold word_modulus. f_equal. lia.
Qed.

Lemma wrap_mod_Size (a : Z) : wrap a mod Size = a mod Size.
Proof.
  unfold wrap. apply Z.mod_mod_divide, Size_divides_word.
Qed.

Lemma next_index_mod (c : Z) : next_index c = (c + 1) mod Size.
Proof. unfold next_index. rewrite land_MASK. apply wrap_mod_Size. Qed.

Lemma size_mod (q : SPSCRing) : size q = (head_ q - tail_ q) mod Size.
Proof. unfold size. rewrite land_MASK. apply wrap_mod_Size. Qed.

Lemma next_index_range (c : Z) : 0 <= next_index c < Size.
Proof. rewrite next_index_mod. apply Z.mod_pos_bound. lia. Qed.

(** An index that is less than two buffer lengths wraps at most once. *)
Lemma mod_once (a n : Z) :
  0 <= a < 2 * n ->
  (a < n /\ a mod n = a) \/ (n <= a /\ a mod n = a - n).
Proof.
  intros Ha. destruct (Z_lt_le_dec a n) as [Hlt|Hge].
  - left. split; [lia|]. apply Z.mod_small. lia.
  - right. split; [lia|]. symmetry.
    apply Z.mod_unique with (q := 1); lia.
Qed.

Ltac wrap_once a :=
  let H := fresh "Hw" in
  destruct (mod_once a Size) as [[? H]|[? H]]; [lia| |];
  rewrite ?H in *.

(** ** The representation invariant *)

Lemma holds_new : holds SPSCRing_new [].
Proof.
  unfold holds, SPSCRing_new. cbn [head_ tail_ buffer_ length].
  rewrite length_replicate, Z2Nat.id by lia.
  repeat split; lia.
Qed.

Lemma holds_head_range q l : holds q l -> 0 <= head_ q < Size.
Proof.
  intros (_ & _ & _ & Hh & _). rewrite Hh. apply Z.mod_pos_bound. lia.
Qed.

Lemma holds_in_bounds q l : holds q l -> index_in_bounds q.
Proof.
  intros H. pose proof (holds_head_range _ _ H) as Hh.
  destruct H as (Ht & Hlen & _). unfold index_in_bounds. lia.
Qed.

Lemma holds_size q l : holds q l -> size q = Z.of_nat (length l).
Proof.
  intros (Ht & _ & Hl & Hh & _). rewrite size_mod, Hh.
  rewrite Zminus_mod_idemp_l.
  replace (tail_ q + Z.of_nat (length l) - tail_ q)
    with (Z.of_nat (length l)) by lia.
  apply Z.mod_small. lia.
Qed.

(** The full test of [try_emplace] fires exactly when [Size - 1] values
    are held, the empty test of [try_pop] exactly when none is. *)
Lemma holds_full_test q l :
  holds q l ->
  (next_index (head_ q) =? tail_ q) = (Z.of_nat (length l) =? Size - 1).
Proof.
  intros (Ht & _ & Hl & Hh & _).
  rewrite next_index_mod, Hh, Z.add_mod_idemp_l by lia.
  wrap_once (tail_ q + Z.of_nat (length l) + 1);
    destruct (Z.eqb_spec (Z.of_nat (length l)) (Size - 1));
    apply Z.eqb_neq || apply Z.eqb_eq; lia.
Qed.

Lemma holds_empty_test q l :
  holds q l -> (tail_ q =? head_ q) = (Z.of_nat (length l) =? 0).
Proof.
  intros (Ht & _ & Hl & Hh & _). rewrite Hh.
  wrap_once (tail_ q + Z.of_nat (length l));
    destruct (Z.eqb_spec (Z.of_nat (length l)) 0);
    apply Z.eqb_neq || apply Z.eqb_eq; lia.
Qed.

(** ** The member functions on a well-formed ring *)

(** The two overloads of [try_emplace] act alike on the queue; they
    differ in what is left of the caller's object. *)
Lemma try_emplace_move_copy item q :
  try_emplace_move item q =
  (fst (try_emplace item q),
   if fst (try_emplace item q) then moved_from item else item,
   snd (try_emplace item q)).
Proof.
  unfold try_emplace_move, try_emplace.
  destruct (next_index (head_ q) =? tail_ q); reflexivity.
Qed.

Lemma try_emplace_full item q l :
  holds q l -> Z.of_nat (length l) = Size - 1 ->
  try_emplace item q =
  (false, mkRing (head_ q) (tail_ q) (buffer_ q) (push_count_ q)
                 (pop_count_ q) (wrap (failed_push_count_ q + 1))).
Proof.
  intros H Hl. unfold try_emplace.
  rewrite (holds_full_test _ _ H), Hl, Z.eqb_refl. reflexivity.
Qed.

Lemma try_emplace_room item q l :
  holds q l -> Z.of_nat (length l) < Size - 1 ->
  try_emplace item q =
  (true, mkRing (next_index (head_ q)) (tail_ q)
                (set_slot (buffer_ q) (head_ q) item)
                (wrap (push_count_ q + 1)) (pop_count_ q)
                (failed_push_count_ q)) /\
  holds (snd (try_emplace item q)) (l ++ [item]).
Proof.
  intros H Hl. pose proof (holds_head_range _ _ H) as Hhr.
  assert (Heq : try_emplace item q =
    (true, mkRing (next_index (head_ q)) (tail_ q)
                  (set_slot (buffer_ q) (head_ q) item)
                  (wrap (push_count_ q + 1)) (pop_count_ q)
                  (failed_push_count_ q))).
  { unfold try_emplace. rewrite (holds_full_test _ _ H).
    destruct (Z.eqb_spec (Z.of_nat (length l)) (Size - 1)); [lia|reflexivity]. }
  split; [exact Heq|]. rewrite Heq. clear Heq.
  destruct H as (Ht & Hlen & _ & Hh & Hslots).
  unfold holds, set_slot. cbn [snd head_ tail_ buffer_].
  rewrite length_insert, length_app. cbn [length].
  split; [lia|]. split; [lia|]. split; [lia|]. split.
  - rewrite next_index_mod, Hh, Z.add_mod_idemp_l by lia.
    f_equal. lia.
  - intros i Hi.
    destruct (Nat.eq_dec i (length l)) as [->|Hne].
    + rewrite <- Hh, list_lookup_insert_eq by lia.
      rewrite lookup_app_r, Nat.sub_diag by lia. reflexivity.
    + rewrite lookup_app_l by lia.
      rewrite <- Hslots by lia.
      apply list_lookup_insert_ne. rewrite Hh.
      wrap_once (tail_ q + Z.of_nat (length l));
        wrap_once (tail_ q + Z.of_nat i); lia.
Qed.

Lemma try_pop_empty item q :
  holds q [] -> try_pop item q = (false, item, q).
Proof.
  intros H. unfold try_pop. rewrite (holds_empty_test _ _ H). reflexivity.
Qed.

Lemma try_pop_some item q v l :
  holds q (v :: l) ->
  try_pop item q =
  (true, v, mkRing (head_ q) (next_index (tail_ q))
                   (set_slot (buffer_ q) (tail_ q) (moved_from v))
                   (push_count_ q) (wrap (pop_count_ q + 1))
                   (failed_push_count_ q)) /\
  holds (snd (try_pop item q)) l.
Proof.
  intros H.
  assert (Hv : slot (buffer_ q) (tail_ q) = v).
  { destruct H as (Ht & _ & _ & _ & Hslots).
    specialize (Hslots 0%nat). cbn [length] in Hslots.
    rewrite Z.add_0_r, Z.mod_small in Hslots by lia.
    unfold slot. rewrite Hslots by lia. reflexivity. }
  assert (Heq : try_pop item q =
    (true, v, mkRing (head_ q) (next_index (tail_ q))
                     (set_slot (buffer_ q) (tail_ q) (moved_from v))
                     (push_count_ q) (wrap (pop_count_ q + 1))
                     (failed_push_count_ q))).
  { unfold try_pop. rewrite (holds_empty_test _ _ H), Hv.
    cbn [length]. destruct (Z.eqb_spec (Z.of_nat (S (length l))) 0);
      [lia|reflexivity]. }
  split; [exact Heq|]. rewrite Heq. clear Heq Hv.
  destruct H as (Ht & Hlen & Hl & Hh & Hslots).
  cbn [length] in Hl, Hh, Hslots.
  unfold holds, set_slot. cbn [snd head_ tail_ buffer_].
  rewrite length_insert.
  split; [apply next_index_range|]. split; [lia|]. split; [lia|]. split.
  - rewrite Hh, next_index_mod, Z.add_mod_idemp_l by lia.
    f_equal. lia.
  - intros i Hi.
    rewrite next_index_mod, Z.add_mod_idemp_l by lia.
    replace (tail_ q + 1 + Z.of_nat i)
      with (tail_ q + Z.of_nat (S i)) by lia.
    rewrite list_lookup_insert_ne.
    + rewrite Hslots by lia. reflexivity.
    + wrap_once (tail_ q + Z.of_nat (S i)); lia.
Qed.

(** ** Clients *)

Lemma run_app ops1 ops2 q :
  run (ops1 ++ ops2) q =
  (outcomes ops1 q ++ outcomes ops2 (final ops1 q),
   final ops2 (final ops1 q)).
Proof.
  unfold outcomes, final. revert q.
  induction ops1 as [|o ops1 IH]; intros q; cbn [run app fst snd].
  - destruct (run ops2 q); reflexivity.
  - destruct (step o q) as [r q1]. rewrite IH.
    destruct (run ops1 q1) as [rs q2]. reflexivity.
Qed.

Lemma outcomes_app ops1 ops2 q :
  outcomes (ops1 ++ ops2) q =
  outcomes ops1 q ++ outcomes ops2 (final ops1 q).
Proof. unfold outcomes at 1. rewrite run_app. reflexivity. Qed.

Lemma final_app ops1 ops2 q :
  final (ops1 ++ ops2) q = final ops2 (final ops1 q).
Proof. unfold final at 1. rewrite run_app. reflexivity. Qed.

Lemma outcomes_cons o ops q :
  outcomes (o :: ops) q = fst (step o q) :: outcomes ops (snd (step o q)).
Proof.
  unfold outcomes. cbn [run]. destruct (step o q) as [r q1].
  cbn [fst snd]. destruct (run ops q1). reflexivity.
Qed.

Lemma final_cons o ops q :
  final (o :: ops) q = final ops (snd (step o q)).
Proof.
  unfold final. cbn [run]. destruct (step o q) as [r q1].
  cbn [fst snd]. destruct (run ops q1). reflexivity.
Qed.

Lemma accepted_app tr1 tr2 :
  accepted (tr1 ++ tr2) = accepted tr1 ++ accepted tr2.
Proof.
  induction tr1 as [|[v| |v|] tr1 IH]; cbn [accepted app];
    rewrite ?IH; reflexivity.
Qed.

Lemma delivered_app tr1 tr2 :
  delivered (tr1 ++ tr2) = delivered tr1 ++ delivered tr2.
Proof.
  induction tr1 as [|[v| |v|] tr1 IH]; cbn [delivered app];
    rewrite ?IH; reflexivity.
Qed.

Lemma rejected_app tr1 tr2 :
  rejected (tr1 ++ tr2) = rejected tr1 + rejected tr2.
Proof.
  induction tr1 as [|[v| |v|] tr1 IH]; cbn [rejected app];
    rewrite ?IH; lia.
Qed.

Lemma emplace_calls_app ops1 ops2 :
  emplace_calls (ops1 ++ ops2) = emplace_calls ops1 + emplace_calls ops2.
Proof.
  induction ops1 as [|[x|x|x] ops1 IH]; cbn [emplace_calls app];
    rewrite ?IH; lia.
Qed.

Lemma step_move_copy item q :
  step (EmplaceMove item) q = step (Emplace item) q.
Proof.
  cbn [step]. rewrite try_emplace_move_copy.
  destruct (try_emplace item q). reflexivity.
Qed.

(** One call on a ring holding [l]: what it reports and what the ring
    holds afterwards. *)
Lemma step_emplace_room item q l :
  holds q l -> Z.of_nat (length l) < Size - 1 ->
  fst (step (Emplace item) q) = Accepted item /\
  holds (snd (step (Emplace item) q)) (l ++ [item]).
Proof.
  intros H Hl. destruct (try_emplace_room item _ _ H Hl) as [Heq Hh].
  cbn [step]. rewrite Heq in *. split; [reflexivity|exact Hh].
Qed.

Lemma step_emplace_full item q l :
  holds q l -> Z.of_nat (length l) = Size - 1 ->
  fst (step (Emplace item) q) = RejectedFull /\
  holds (snd (step (Emplace item) q)) l.
Proof.
  intros H Hl. cbn [step]. rewrite (try_emplace_full item _ _ H Hl).
  split; [reflexivity|exact H].
Qed.

Lemma step_pop_some item q v l :
  holds q (v :: l) ->
  fst (step (Pop item) q) = Delivered v /\
  holds (snd (step (Pop item) q)) l.
Proof.
  intros H. destruct (try_pop_some item _ _ _ H) as [Heq Hh].
  cbn [step]. rewrite Heq in *. split; [reflexivity|exact Hh].
Qed.

Lemma step_pop_empty item q :
  holds q [] ->
  fst (step (Pop item) q) = NothingToPop /\ snd (step (Pop item) q) = q.
Proof.
  intros H. cbn [step]. rewrite (try_pop_empty item _ H).
  split; reflexivity.
Qed.

(** Every call keeps the ring well formed, and what it adds to the
    accepted values is what it adds to the delivered and held ones. *)
Lemma step_holds o q l :
  holds q l ->
  exists l', holds (snd (step o q)) l' /\
    l ++ accepted [fst (step o q)] = delivered [fst (step o q)] ++ l'.
Proof.
  intros H. destruct o as [x|x|x]; [|rewrite step_move_copy|].
  1,2: destruct (Z_lt_le_dec (Z.of_nat (length l)) (Size - 1)) as [Hl|Hl];
    [ destruct (step_emplace_room x _ _ H Hl) as [-> Hh];
      exists (l ++ [x]); split; [exact Hh|reflexivity]
    | assert (Hl' : Z.of_nat (length l) = Size - 1)
        by (destruct H as (_ & _ & ? & _); lia);
      destruct (step_emplace_full x _ _ H Hl') as [-> Hh];
      exists l; split; [exact Hh|cbn; apply app_nil_r] ].
  destruct l as [|v l].
  - destruct (step_pop_empty x _ H) as [-> ->].
    exists []; split; [exact H|reflexivity].
  - destruct (step_pop_some x _ _ _ H) as [-> Hh].
    exists l; split; [exact Hh|cbn; rewrite app_nil_r; reflexivity].
Qed.

Lemma run_holds ops q l :
  holds q l ->
  exists l', holds (final ops q) l' /\
    l ++ accepted (outcomes ops q) = delivered (outcomes ops q) ++ l'.
Proof.
  revert q l. induction ops as [|o ops IH]; intros q l H.
  - exists l. split; [exact H|]. cbn. apply app_nil_r.
  - destruct (step_holds o _ _ H) as (l1 & H1 & E1).
    destruct (IH _ _ H1) as (l2 & H2 & E2).
    exists l2. rewrite final_cons, outcomes_cons. split; [exact H2|].
    change (?r :: ?tr) with ([r] ++ tr).
    rewrite accepted_app, delivered_app, app_assoc, E1.
    rewrite <- !app_assoc, E2. reflexivity.
Qed.

(** The held values can be read off the buffer. *)
Lemma holds_contents q l : holds q l -> contents q = l.
Proof.
  intros H. unfold contents. rewrite (holds_size _ _ H), Nat2Z.id.
  destruct H as (_ & _ & _ & _ & Hslots).
  apply list_eq. intros i. rewrite list_lookup_fmap.
  destruct (Nat.lt_ge_cases i (length l)) as [Hi|Hi].
  - rewrite lookup_seq_lt by exact Hi. cbn [fmap option_fmap option_map].
    unfold slot. rewrite Nat.add_0_l, (Hslots _ Hi).
    destruct (lookup_lt_is_Some_2 l i Hi) as [x ->]. reflexivity.
  - rewrite lookup_seq_ge by exact Hi.
    rewrite lookup_ge_None_2 by exact Hi. reflexivity.
Qed.

Lemma step_emplace_by c q : step (emplace_by c) q = step (Emplace (snd c)) q.
Proof.
  unfold emplace_by. destruct (fst c); [apply step_move_copy|reflexivity].
Qed.

(** Pushing into free room: every call is accepted. *)
Lemma run_emplaces calls q l :
  holds q l ->
  Z.of_nat (length l) + Z.of_nat (length calls) <= Size - 1 ->
  outcomes (emplace_by <$> calls) q = (fun c => Accepted (snd c)) <$> calls /\
  holds (final (emplace_by <$> calls) q) (l ++ (snd <$> calls)).
Proof.
  revert q l. induction calls as [|c calls IH]; intros q l H Hl.
  - cbn. rewrite app_nil_r. split; [reflexivity|exact H].
  - cbn [length] in Hl. rewrite !fmap_cons, outcomes_cons, final_cons.
    rewrite step_emplace_by.
    destruct (step_emplace_room (snd c) _ _ H) as [-> H1]; [lia|].
    destruct (IH _ _ H1) as [-> H2].
    { rewrite length_app. cbn [length]. lia. }
    split; [reflexivity|]. rewrite <- app_assoc in H2. exact H2.
Qed.

(** Popping as many times as values are held hands them all out. *)
Lemma run_drain item l q :
  holds q l ->
  outcomes (replicate (length l) (Pop item)) q = Delivered <$> l /\
  holds (final (replicate (length l) (Pop item)) q) [].
Proof.
  revert q. induction l as [|v l IH]; intros q H.
  - cbn. split; [reflexivity|exact H].
  - cbn [length replicate]. rewrite outcomes_cons, final_cons, fmap_cons.
    destruct (step_pop_some item _ _ _ H) as [-> H1].
    destruct (IH _ H1) as [-> H2]. split; [reflexivity|exact H2].
Qed.

Lemma delivered_Delivered l : delivered (Delivered <$> l) = l.
Proof. induction l as [|v l IH]; cbn; rewrite ?IH; reflexivity. Qed.

Lemma accepted_Delivered l : accepted (Delivered <$> l) = [].
Proof. induction l as [|v l IH]; cbn; rewrite ?IH; reflexivity. Qed.

(** ** Counters *)

Lemma wrap_succ_wrap (c : Z) : wrap (wrap c + 1) = wrap (c + 1).
Proof. unfold wrap. apply Z.add_mod_idemp_l. discriminate. Qed.

Lemma wrap_small (c : Z) : 0 <= c < word_modulus -> wrap c = c.
Proof. apply Z.mod_small. Qed.

Lemma wrap_range (c : Z) : 0 <= wrap c < word_modulus.
Proof. apply Z.mod_pos_bound. reflexivity. Qed.

Lemma rejected_nonneg tr : 0 <= rejected tr.
Proof. induction tr as [|[v| |v|] tr IH]; cbn [rejected]; lia. Qed.

(** Which counter a call bumps, by what it reports. *)
Lemma step_counters o q :
  match fst (step o q) with
  | Accepted _ =>
      push_count_ (snd (step o q)) = wrap (push_count_ q + 1) /\
      pop_count_ (snd (step o q)) = pop_count_ q /\
      failed_push_count_ (snd (step o q)) = failed_push_count_ q
  | RejectedFull =>
      push_count_ (snd (step o q)) = push_count_ q /\
      pop_count_ (snd (step o q)) = pop_count_ q /\
      failed_push_count_ (snd (step o q)) = wrap (failed_push_count_ q + 1)
  | Delivered _ =>
      push_count_ (snd (step o q)) = push_count_ q /\
      pop_count_ (snd (step o q)) = wrap (pop_count_ q + 1) /\
      failed_push_count_ (snd (step o q)) = failed_push_count_ q
  | NothingToPop =>
      push_count_ (snd (step o q)) = push_count_ q /\
      pop_count_ (snd (step o q)) = pop_count_ q /\
      failed_push_count_ (snd (step o q)) = failed_push_count_ q
  end.
Proof.
  destruct o as [x|x|x]; cbn [step];
    unfold try_emplace, try_emplace_move, try_pop;
    match goal with |- context [if ?b then _ else _] => destruct b end;
    cbn; repeat split; reflexivity.
Qed.

(** Every [try_emplace] call is either accepted or rejected, and no
    other call is. *)
Lemma step_calls o q :
  Z.of_nat (length (accepted [fst (step o q)])) + rejected [fst (step o q)]
  = emplace_calls [o].
Proof.
  destruct o as [x|x|x]; cbn [step];
    unfold try_emplace, try_emplace_move, try_pop;
    match goal with |- context [if ?b then _ else _] => destruct b end;
    reflexivity.
Qed.

Lemma run_calls ops q :
  Z.of_nat (length (accepted (outcomes ops q))) + rejected (outcomes ops q)
  = emplace_calls ops.
Proof.
  revert q. induction ops as [|o ops IH]; intros q; [reflexivity|].
  rewrite outcomes_cons.
  change (o :: ops) with ([o] ++ ops).
  change (?r :: outcomes ops ?q1) with ([r] ++ outcomes ops q1).
  rewrite emplace_calls_app, accepted_app, rejected_app, length_app.
  rewrite <- (step_calls o q), <- (IH (snd (step o q))). lia.
Qed.

(** On a queue used since construction the counters are the numbers of
    accepted, delivered and rejected calls, reduced modulo [2^64]. *)
Lemma run_counters ops :
  push_count_ (final ops SPSCRing_new)
    = wrap (Z.of_nat (length (accepted (outcomes ops SPSCRing_new)))) /\
  pop_count_ (final ops SPSCRing_new)
    = wrap (Z.of_nat (length (delivered (outcomes ops SPSCRing_new)))) /\
  failed_push_count_ (final ops SPSCRing_new)
    = wrap (rejected (outcomes ops SPSCRing_new)).
Proof.
  induction ops as [|o ops (IHa & IHd & IHr)] using rev_ind.
  - repeat split; reflexivity.
  - rewrite final_app, outcomes_app, accepted_app, delivered_app,
      rejected_app, !length_app.
    rewrite final_cons, outcomes_cons.
    change (final [] ?q) with q. change (outcomes [] ?q) with (@nil Outcome).
    pose proof (step_counters o (final ops SPSCRing_new)) as Hc.
    destruct (fst (step o (final ops SPSCRing_new)));
      destruct Hc as (-> & -> & ->);
      cbn [accepted delivered rejected length];
      rewrite ?IHa, ?IHd, ?IHr, ?wrap_succ_wrap;
      repeat split; f_equal; lia.
Qed.

(** A queue used since construction is well formed and holds the values
    accepted and not yet delivered. *)
Lemma reachable_holds ops :
  holds (final ops SPSCRing_new) (contents (final ops SPSCRing_new)) /\
  accepted (outcomes ops SPSCRing_new)
    = delivered (outcomes ops SPSCRing_new)
      ++ contents (final ops SPSCRing_new).
Proof.
  destruct (run_holds ops _ _ holds_new) as (l & H & E).
  rewrite (holds_contents _ _ H). split; [exact H|exact E].
Qed.

Lemma reachable_in_bounds ops : index_in_bounds (final ops SPSCRing_new).
Proof. eapply holds_in_bounds, reachable_holds. Qed.

(** ** The properties of the specification *)

(** C1 (FIFO order).  Whatever calls a client makes on a new queue, the
    values accepted by successful [try_emplace] calls are, in order, the
    values delivered by successful [try_pop] calls followed by the
    values still held: the delivered values are a prefix of the accepted
    ones, none is duplicated and none is lost.  In particular when the
    queue ends up empty both sequences are equal, and popping the held
    values out delivers exactly what was accepted. *)
Theorem fifo_order (ops : list Op) (item : T) :
  let tr := outcomes ops SPSCRing_new in
  let q := final ops SPSCRing_new in
  let drained := ops ++ replicate (Z.to_nat (size q)) (Pop item) in
  accepted tr = delivered tr ++ contents q /\
  (empty q = true -> delivered tr = accepted tr) /\
  accepted (outcomes drained SPSCRing_new) = accepted tr /\
  delivered (outcomes drained SPSCRing_new) = accepted tr.
Proof.
  cbv zeta. destruct (reachable_holds ops) as [H E].
  split; [exact E|]. split.
  - intros He. unfold empty in He. rewrite Z.eqb_sym in He.
    rewrite (holds_empty_test _ _ H) in He. apply Z.eqb_eq in He.
    destruct (contents (final ops SPSCRing_new)); [|cbn in He; lia].
    rewrite app_nil_r in E. symmetry. exact E.
  - rewrite (holds_size _ _ H), Nat2Z.id, outcomes_app.
    destruct (run_drain item _ _ H) as [-> _].
    rewrite accepted_app, delivered_app, accepted_Delivered,
      delivered_Delivered, app_nil_r.
    split; [reflexivity|symmetry; exact E].
Qed.

(** C2 (capacity boundary).  On a new queue of [Size] slots, [Size - 1]
    consecutive [try_emplace] calls (through either overload) all
    succeed and the next one fails; a [try_pop] then succeeds and hands
    out the oldest value, after which exactly one more [try_emplace]
    succeeds.  [capacity()] is [Size - 1]. *)
Theorem capacity_boundary (c0 : bool * T) (rest : list (bool * T))
    (c1 c2 c3 : bool * T) (item : T) :
  Z.of_nat (length (c0 :: rest)) = Size - 1 ->
  outcomes ((emplace_by <$> c0 :: rest)
            ++ [emplace_by c1; Pop item; emplace_by c2; emplace_by c3])
           SPSCRing_new
  = ((fun c => Accepted (snd c)) <$> c0 :: rest)
    ++ [RejectedFull; Delivered (snd c0); Accepted (snd c2); RejectedFull]
  /\ capacity SPSCRing_new = Size - 1.
Proof.
  intros Hlen. split; [|reflexivity].
  destruct (run_emplaces (c0 :: rest) _ [] holds_new) as [E H].
  { cbn [length] in *. lia. }
  rewrite outcomes_app, E. f_equal. clear E.
  set (q1 := final (emplace_by <$> c0 :: rest) SPSCRing_new) in *.
  cbn [app] in H. rewrite fmap_cons in H.
  assert (Hl : Z.of_nat (length (snd <$> rest)) = Size - 2).
  { rewrite length_fmap. cbn [length] in Hlen. lia. }
  rewrite outcomes_cons, step_emplace_by.
  destruct (step_emplace_full (snd c1) _ _ H) as [-> H1].
  { cbn [length]. lia. }
  rewrite outcomes_cons.
  destruct (step_pop_some item _ _ _ H1) as [-> H2].
  rewrite outcomes_cons, step_emplace_by.
  destruct (step_emplace_room (snd c2) _ _ H2) as [-> H3]; [lia|].
  rewrite outcomes_cons, step_emplace_by.
  destruct (step_emplace_full (snd c3) _ _ H3) as [-> _].
  { rewrite length_app. cbn [length]. lia. }
  reflexivity.
Qed.

(** C4 (empty pop).  On every queue state with [head_ = tail_],
    [try_pop] reports failure, leaves the caller's object alone and
    leaves the whole state (indices, buffer, the three counters) as it
    was.  A new queue is such a state, and so is every queue used since
    construction whose push and pop counters are equal. *)
Theorem empty_pop_unchanged (item : T) :
  (forall q, head_ q = tail_ q -> try_pop item q = (false, item, q)) /\
  try_pop item SPSCRing_new = (false, item, SPSCRing_new) /\
  (forall ops,
     total_pushes (final ops SPSCRing_new)
       = total_pops (final ops SPSCRing_new) ->
     try_pop item (final ops SPSCRing_new)
       = (false, item, final ops SPSCRing_new)).
Proof.
  assert (Hgen : forall q, head_ q = tail_ q ->
                           try_pop item q = (false, item, q)).
  { intros q Hq. unfold try_pop. rewrite Hq, Z.eqb_refl. reflexivity. }
  split; [exact Hgen|]. split; [apply Hgen; reflexivity|].
  intros ops Heq. apply try_pop_empty.
  destruct (reachable_holds ops) as [H E].
  destruct (run_counters ops) as (Ha & Hd & _).
  unfold total_pushes, total_pops in Heq. rewrite Ha, Hd in Heq.
  apply (f_equal (@length T)) in E. rewrite length_app in E.
  pose proof (proj1 (proj2 (proj2 H))) as Hl.
  assert (Hz : Z.of_nat (length (contents (final ops SPSCRing_new))) = 0).
  { rewrite <- (wrap_small (Z.of_nat (length (contents _))))
      by (pose proof Size_word; lia).
    replace (Z.of_nat (length (contents (final ops SPSCRing_new))))
      with (Z.of_nat (length (accepted (outcomes ops SPSCRing_new)))
            - Z.of_nat (length (delivered (outcomes ops SPSCRing_new))))
      by lia.
    unfold wrap in *. rewrite Zminus_mod, Heq, Z.sub_diag. reflexivity. }
  destruct (contents (final ops SPSCRing_new)); [exact H|cbn in Hz; lia].
Qed.

(** C5 (full push).  On every queue state with
    [(head_ + 1) mod Size = tail_], both overloads of [try_emplace]
    report failure and change nothing but the failed-push counter, which
    is incremented by one (as a [uint64_t]); the caller's object is not
    moved from. *)
Theorem full_push_counts (item : T) (q : SPSCRing) :
  (head_ q + 1) mod Size = tail_ q ->
  let q' := mkRing (head_ q) (tail_ q) (buffer_ q) (push_count_ q)
                   (pop_count_ q) (wrap (failed_push_count_ q + 1)) in
  try_emplace item q = (false, q') /\
  try_emplace_move item q = (false, item, q') /\
  (0 <= failed_pushes q < word_modulus - 1 ->
   failed_pushes q' = failed_pushes q + 1).
Proof.
  intros Hfull. cbv zeta.
  assert (E : try_emplace item q =
    (false, mkRing (head_ q) (tail_ q) (buffer_ q) (push_count_ q)
                   (pop_count_ q) (wrap (failed_push_count_ q + 1)))).
  { unfold try_emplace. rewrite next_index_mod, Hfull, Z.eqb_refl.
    reflexivity. }
  split; [exact E|]. split.
  - rewrite try_emplace_move_copy, E. reflexivity.
  - intros Hc. unfold failed_pushes in *. cbn [failed_push_count_].
    apply wrap_small. lia.
Qed.

(** C6, as the code has it (counter consistency below the counters'
    range).  As long as a client has made fewer than [2^64]
    [try_emplace] calls on a new queue: the pop counter is at most the
    push counter, the push and failed-push counters add up to the number
    of [try_emplace] calls, and no counter was larger at any earlier
    point of the run. *)
Theorem counter_consistency (ops : list Op) :
  emplace_calls ops < word_modulus ->
  let q := final ops SPSCRing_new in
  total_pops q <= total_pushes q /\
  total_pushes q + failed_pushes q = emplace_calls ops /\
  forall ops1 ops2, ops = ops1 ++ ops2 ->
    total_pushes (final ops1 SPSCRing_new) <= total_pushes q /\
    total_pops (final ops1 SPSCRing_new) <= total_pops q /\
    failed_pushes (final ops1 SPSCRing_new) <= failed_pushes q.
Proof.
  intros Hcalls. cbv zeta. unfold total_pushes, total_pops, failed_pushes.
  destruct (run_counters ops) as (-> & -> & ->).
  destruct (reachable_holds ops) as [_ E].
  apply (f_equal (@length T)) in E. rewrite length_app in E.
  pose proof (run_calls ops SPSCRing_new) as Hsum.
  pose proof (rejected_nonneg (outcomes ops SPSCRing_new)) as Hrej.
  rewrite !wrap_small by lia.
  split; [lia|]. split; [lia|].
  intros ops1 ops2 ->.
  destruct (run_counters ops1) as (-> & -> & ->).
  rewrite outcomes_app, accepted_app, delivered_app, rejected_app,
    !length_app in *.
  pose proof (rejected_nonneg (outcomes ops1 SPSCRing_new)).
  pose proof (rejected_nonneg
                (outcomes ops2 (final ops1 SPSCRing_new))).
  rewrite !wrap_small by lia. lia.
Qed.

(** C7 (index range).  After construction and after every call, both
    indices lie in [0 .. Size - 1]. *)
Theorem index_range (ops : list Op) :
  let q := final ops SPSCRing_new in
  0 <= head_ q < Size /\ 0 <= tail_ q < Size.
Proof.
  cbv zeta. destruct (reachable_holds ops) as [H _].
  split; [eapply holds_head_range, H|apply H].
Qed.

(** C8 (status queries).  On every queue state [empty()] is true exactly
    when [head_ = tail_], [full()] is true exactly when
    [(head_ + 1) mod Size = tail_], and [capacity()] is [Size - 1]
    before and after any calls. *)
Theorem status_queries (q : SPSCRing) (ops : list Op) :
  (empty q = true <-> head_ q = tail_ q) /\
  (full q = true <-> (head_ q + 1) mod Size = tail_ q) /\
  capacity q = Size - 1 /\
  capacity (final ops q) = Size - 1.
Proof.
  unfold empty, full. rewrite next_index_mod, !Z.eqb_eq.
  repeat split; auto.
Qed.

(** C10 (size).  On a queue used since construction, [size()] is
    [(head_ - tail_) mod Size]; it is the number of values held, that
    is the number of accepted values minus the number of delivered
    ones; it is [total_pushes() - total_pops()] computed in [uint64_t],
    which is the plain difference whenever the pop counter does not
    exceed the push counter, as is the case while fewer than [2^64]
    [try_emplace] calls have been made; and it lies between 0 and
    [capacity()]. *)
Theorem size_counts (ops : list Op) :
  let q := final ops SPSCRing_new in
  let tr := outcomes ops SPSCRing_new in
  size q = (head_ q - tail_ q) mod Size /\
  size q = wrap (total_pushes q - total_pops q) /\
  (total_pops q <= total_pushes q ->
   size q = total_pushes q - total_pops q) /\
  (emplace_calls ops < word_modulus ->
   size q = total_pushes q - total_pops q) /\
  size q = Z.of_nat (length (contents q)) /\
  size q = Z.of_nat (length (accepted tr)) - Z.of_nat (length (delivered tr)) /\
  0 <= size q <= capacity q.
Proof.
  cbv zeta. destruct (reachable_holds ops) as [H E].
  pose proof (holds_size _ _ H) as Hs.
  pose proof (proj1 (proj2 (proj2 H))) as Hl.
  apply (f_equal (@length T)) in E. rewrite length_app in E.
  destruct (run_counters ops) as (Ha & Hd & _).
  assert (Hw : size (final ops SPSCRing_new)
               = wrap (total_pushes (final ops SPSCRing_new)
                       - total_pops (final ops SPSCRing_new))).
  { unfold total_pushes, total_pops. rewrite Ha, Hd. unfold wrap.
    rewrite <- Zminus_mod, Z.mod_small; pose proof Size_word; lia. }
  split; [apply size_mod|]. split; [exact Hw|]. split.
  - intros Hle. rewrite Hw. apply wrap_small.
    unfold total_pushes, total_pops in *.
    pose proof (wrap_range
      (Z.of_nat (length (accepted (outcomes ops SPSCRing_new))))).
    pose proof (wrap_range
      (Z.of_nat (length (delivered (outcomes ops SPSCRing_new))))).
    rewrite Ha, Hd in *. lia.
  - split; [|unfold capacity; lia].
    intros Hcalls. unfold total_pushes, total_pops. rewrite Ha, Hd.
    pose proof (run_calls ops SPSCRing_new) as Hsum.
    pose proof (rejected_nonneg (outcomes ops SPSCRing_new)) as Hrej.
    rewrite !wrap_small by lia. lia.
Qed.

(** ** Counters past their range *)

(** Pushing and popping one value [n] times over on an empty ring. *)
Lemma round_trips_run n x q :
  holds q [] ->
  length (accepted (outcomes (round_trips n x) q)) = n /\
  length (delivered (outcomes (round_trips n x) q)) = n /\
  rejected (outcomes (round_trips n x) q) = 0 /\
  holds (final (round_trips n x) q) [].
Proof.
  revert q. induction n as [|n IH]; intros q H.
  - split_and!; try reflexivity. exact H.
  - cbn [round_trips]. rewrite !outcomes_cons, !final_cons.
    destruct (step_emplace_room x _ _ H) as [-> H1]; [cbn; lia|].
    destruct (step_pop_some x _ _ _ H1) as [-> H2].
    destruct (IH _ H2) as (Ea & Ed & Er & H3).
    cbn [accepted delivered rejected length].
    rewrite Ea, Ed, Er. split_and!; try reflexivity. exact H3.
Qed.

Lemma round_trips_calls n x : emplace_calls (round_trips n x) = Z.of_nat n.
Proof.
  induction n as [|n IH]; [reflexivity|].
  cbn [round_trips emplace_calls]. rewrite IH. lia.
Qed.

(** After [2^64 - 1] round trips and one more push the push counter has
    wrapped to zero while the pop counter is at its maximum. *)
Lemma counters_wrap n x :
  Z.of_nat n = word_modulus - 1 ->
  let before := final (round_trips n x) SPSCRing_new in
  let q := final (round_trips n x ++ [Emplace x]) SPSCRing_new in
  total_pushes before = word_modulus - 1 /\
  total_pushes q = 0 /\
  total_pops q = word_modulus - 1 /\
  failed_pushes q = 0 /\
  emplace_calls (round_trips n x ++ [Emplace x]) = word_modulus.
Proof.
  intros Hn. cbv zeta. unfold total_pushes, total_pops, failed_pushes.
  destruct (round_trips_run n x _ holds_new) as (Ea & Ed & Er & H).
  destruct (run_counters (round_trips n x)) as (-> & _ & _).
  destruct (run_counters (round_trips n x ++ [Emplace x])) as (-> & -> & ->).
  rewrite outcomes_app, accepted_app, delivered_app, rejected_app,
    !length_app, emplace_calls_app, round_trips_calls.
  rewrite outcomes_cons.
  destruct (step_emplace_room x _ _ H) as [-> _]; [cbn; lia|].
  change (outcomes [] ?q) with (@nil Outcome).
  cbn [accepted delivered rejected length emplace_calls].
  rewrite Ea, Ed, Er, Nat.add_0_r, Nat2Z.inj_add, Hn.
  repeat split; reflexivity.
Qed.

(** ** The ring as a bounded first-in first-out list *)

Lemma fifo_step_refines o q l :
  holds q l ->
  fst (step o q) = fst (fifo_step o l) /\
  holds (snd (step o q)) (snd (fifo_step o l)).
Proof.
  intros H. destruct o as [x|x|x]; [|rewrite step_move_copy|];
    cbn [fifo_step].
  1,2: destruct (Z.ltb_spec (Z.of_nat (length l)) (Size - 1)) as [Hl|Hl];
    [ exact (step_emplace_room x _ _ H Hl)
    | assert (Hl' : Z.of_nat (length l) = Size - 1)
        by (pose proof (proj1 (proj2 (proj2 H))); lia);
      exact (step_emplace_full x _ _ H Hl') ].
  destruct l as [|v l].
  - destruct (step_pop_empty x _ H) as [-> ->]. split; [reflexivity|exact H].
  - exact (step_pop_some x _ _ _ H).
Qed.

Lemma fifo_run_refines ops q l :
  holds q l ->
  outcomes ops q = fst (fifo_run ops l) /\
  holds (final ops q) (snd (fifo_run ops l)).
Proof.
  revert q l. induction ops as [|o ops IH]; intros q l H.
  - split; [reflexivity|exact H].
  - rewrite outcomes_cons, final_cons. cbn [fifo_run].
    destruct (fifo_step_refines o _ _ H) as [E1 H1].
    destruct (fifo_step o l) as [r l1]. cbn [fst snd] in *.
    destruct (IH _ _ H1) as [E2 H2].
    destruct (fifo_run ops l1) as [rs l2]. cbn [fst snd] in *.
    rewrite E1, E2. split; [reflexivity|exact H2].
Qed.

(** X1.  On a new queue every client sees exactly what it would see on a
    first-in first-out list bounded by [Size - 1] values: call by call
    the same acceptances, rejections and delivered values, and at the end
    the ring holds the list's values in the list's order. *)
Theorem ring_refines_fifo (ops : list Op) :
  outcomes ops SPSCRing_new = fst (fifo_run ops []) /\
  contents (final ops SPSCRing_new) = snd (fifo_run ops []).
Proof.
  destruct (fifo_run_refines ops _ _ holds_new) as [E H].
  split; [exact E|apply holds_contents, H].
Qed.

(** ** Status queries and calls *)

Lemma next_index_fixpoint_free (h : Z) : next_index h <> h.
Proof.
  rewrite next_index_mod. intros E.
  assert (Hh : 0 <= h < Size) by (rewrite <- E; apply Z.mod_pos_bound; lia).
  wrap_once (h + 1); lia.
Qed.

(** X2.  On every state a queue is not both empty and full,
    [try_emplace] succeeds exactly when [full()] is false and [try_pop]
    exactly when [empty()] is false.  On a queue used since construction
    [empty()] means [size() = 0] and [full()] means
    [size() = capacity()]. *)
Theorem status_consistent (q : SPSCRing) (x item : T) (ops : list Op) :
  empty q && full q = false /\
  fst (try_emplace x q) = negb (full q) /\
  fst (fst (try_pop item q)) = negb (empty q) /\
  (empty (final ops SPSCRing_new) = true
     <-> size (final ops SPSCRing_new) = 0) /\
  (full (final ops SPSCRing_new) = true
     <-> size (final ops SPSCRing_new) = capacity (final ops SPSCRing_new)).
Proof.
  split_and!.
  - unfold empty, full. destruct (Z.eqb_spec (head_ q) (tail_ q)) as [E|];
      [|reflexivity].
    rewrite <- E. cbn. apply Z.eqb_neq, next_index_fixpoint_free.
  - unfold try_emplace, full.
    destruct (next_index (head_ q) =? tail_ q); reflexivity.
  - unfold try_pop, empty. rewrite (Z.eqb_sym (tail_ q)).
    destruct (head_ q =? tail_ q); reflexivity.
  - destruct (reachable_holds ops) as [H _].
    unfold empty. rewrite Z.eqb_sym, (holds_empty_test _ _ H),
      (holds_size _ _ H). apply Z.eqb_eq.
  - destruct (reachable_holds ops) as [H _].
    unfold full, capacity. rewrite (holds_full_test _ _ H),
      (holds_size _ _ H). apply Z.eqb_eq.
Qed.

(** X3.  On a ring whose indices are in range and which is neither empty
    nor full, a push and a pop commute: both succeed in either order, the
    pop hands out the same value, and the ring ends in the same state. *)
Theorem push_pop_commute (x item : T) (q : SPSCRing) :
  0 <= head_ q < Size -> 0 <= tail_ q < Size ->
  empty q = false -> full q = false ->
  fst (try_emplace x q) = true /\
  fst (try_pop item q) = (true, slot (buffer_ q) (tail_ q)) /\
  fst (try_pop item (snd (try_emplace x q))) = fst (try_pop item q) /\
  fst (try_emplace x (snd (try_pop item q))) = true /\
  snd (try_pop item (snd (try_emplace x q)))
    = snd (try_emplace x (snd (try_pop item q))).
Proof.
  intros Hh Ht He Hf. unfold empty, full in *.
  apply Z.eqb_neq in He. assert (Hf' := Hf). apply Z.eqb_neq in Hf'.
  assert (Hnn : next_index (head_ q) <> next_index (tail_ q)).
  { rewrite !next_index_mod.
    wrap_once (head_ q + 1); wrap_once (tail_ q + 1); lia. }
  assert (Hslot : slot (set_slot (buffer_ q) (head_ q) x) (tail_ q)
                  = slot (buffer_ q) (tail_ q)).
  { unfold slot, set_slot. rewrite list_lookup_insert_ne by lia.
    reflexivity. }
  unfold try_emplace, try_pop. rewrite Hf.
  cbn [fst snd head_ tail_ buffer_ push_count_ pop_count_
       failed_push_count_].
  replace (tail_ q =? head_ q) with false by (symmetry; apply Z.eqb_neq; lia).
  replace (tail_ q =? next_index (head_ q)) with false
    by (symmetry; apply Z.eqb_neq; lia).
  cbn [fst snd head_ tail_ buffer_ push_count_ pop_count_
       failed_push_count_].
  replace (next_index (head_ q) =? next_index (tail_ q)) with false
    by (symmetry; apply Z.eqb_neq; lia).
  cbn [fst snd]. rewrite Hslot. split_and!; try reflexivity.
  f_equal. unfold set_slot. apply list_insert_insert_ne. lia.
Qed.

(** X4.  The producer interface never writes [tail_] or the pop counter,
    and the consumer interface never writes [head_], the push counter or
    the failed-push counter: after any run of calls of one side only, the
    other side's fields are what they were. *)
Theorem single_writer (ops : list Op) (q : SPSCRing) :
  (forallb is_producer_op ops = true ->
   tail_ (final ops q) = tail_ q /\
   pop_count_ (final ops q) = pop_count_ q) /\
  (forallb is_consumer_op ops = true ->
   head_ (final ops q) = head_ q /\
   push_count_ (final ops q) = push_count_ q /\
   failed_push_count_ (final ops q) = failed_push_count_ q).
Proof.
  split; revert q; induction ops as [|o ops IH]; intros q Hall;
    try (split_and!; reflexivity);
    cbn [forallb] in Hall; apply andb_prop in Hall as [Ho Hall];
    rewrite final_cons; specialize (IH (snd (step o q)) Hall);
    destruct o as [x|x|x]; try discriminate Ho;
    revert IH; cbn [step];
    unfold try_emplace, try_emplace_move, try_pop;
    match goal with |- context [if ?b then _ else _] => destruct b end;
    cbn [fst snd head_ tail_ push_count_ pop_count_ failed_push_count_];
    intros IH; exact IH.
Qed.

(** ** Room and backlog on a used queue *)

(** X5.  On a queue used since construction, [capacity() - size()]
    further [try_emplace] calls are accepted and the one after them is
    rejected. *)
Theorem free_room (ops : list Op) (calls : list (bool * T)) (c : bool * T) :
  let q := final ops SPSCRing_new in
  Z.of_nat (length calls) = capacity q - size q ->
  outcomes ((emplace_by <$> calls) ++ [emplace_by c]) q
  = ((fun c => Accepted (snd c)) <$> calls) ++ [RejectedFull].
Proof.
  cbv zeta. intros Hlen. destruct (reachable_holds ops) as [H _].
  rewrite (holds_size _ _ H) in Hlen. unfold capacity in Hlen.
  destruct (run_emplaces calls _ _ H) as [E H1]; [lia|].
  rewrite outcomes_app, E. f_equal.
  rewrite outcomes_cons, step_emplace_by.
  destruct (step_emplace_full (snd c) _ _ H1) as [-> _]; [|reflexivity].
  rewrite length_app, length_fmap. lia.
Qed.

(** X6.  On a queue used since construction, [size()] further [try_pop]
    calls hand out the held values, oldest first, the one after them
    finds the queue empty, and [empty()] is then true. *)
Theorem drain_backlog (ops : list Op) (item : T) :
  let q := final ops SPSCRing_new in
  let pops := replicate (Z.to_nat (size q)) (Pop item) ++ [Pop item] in
  outcomes pops q = (Delivered <$> contents q) ++ [NothingToPop] /\
  empty (final pops q) = true.
Proof.
  cbv zeta. destruct (reachable_holds ops) as [H _].
  rewrite (holds_size _ _ H), Nat2Z.id.
  destruct (run_drain item _ _ H) as [E H1].
  rewrite outcomes_app, final_app, E, outcomes_cons, final_cons.
  destruct (step_pop_empty item _ H1) as [-> ->].
  split; [reflexivity|]. change (final [] ?q1) with q1.
  unfold empty. rewrite Z.eqb_sym, (holds_empty_test _ _ H1). reflexivity.
Qed.

(** ** Indices and counters *)

Lemma step_tail o q :
  tail_ (snd (step o q)) =
  match fst (step o q) with
  | Delivered _ => next_index (tail_ q)
  | _ => tail_ q
  end.
Proof.
  destruct o as [x|x|x]; cbn [step];
    unfold try_emplace, try_emplace_move, try_pop;
    match goal with |- context [if ?b then _ else _] => destruct b end;
    reflexivity.
Qed.

Lemma run_tail ops :
  tail_ (final ops SPSCRing_new)
  = Z.of_nat (length (delivered (outcomes ops SPSCRing_new))) mod Size.
Proof.
  induction ops as [|o ops IH] using rev_ind.
  - cbn. rewrite Z.mod_0_l; lia.
  - rewrite final_app, outcomes_app, delivered_app, length_app.
    rewrite final_cons, outcomes_cons.
    change (final [] ?q) with q. change (outcomes [] ?q) with (@nil Outcome).
    rewrite step_tail.
    destruct (fst (step o (final ops SPSCRing_new)));
      cbn [delivered length]; rewrite ?Nat.add_0_r; try exact IH.
    rewrite next_index_mod, IH, Z.add_mod_idemp_l by lia.
    f_equal. lia.
Qed.

(** X7.  On a queue used since construction each index is its side's
    counter reduced modulo [Size]: [head_ = total_pushes() mod Size] and
    [tail_ = total_pops() mod Size], also after the counters have wrapped
    at [2^64]. *)
Theorem indices_follow_counters (ops : list Op) :
  let q := final ops SPSCRing_new in
  head_ q = total_pushes q mod Size /\ tail_ q = total_pops q mod Size.
Proof.
  cbv zeta. unfold total_pushes, total_pops.
  destruct (run_counters ops) as (-> & -> & _).
  rewrite !wrap_mod_Size. split; [|apply run_tail].
  destruct (reachable_holds ops) as [H E].
  destruct H as (_ & _ & _ & -> & _).
  apply (f_equal (@length T)) in E. rewrite length_app in E.
  rewrite run_tail, Z.add_mod_idemp_l by lia. f_equal. lia.
Qed.

End Ring.

(** C9 (minimum size).  On a new queue with [Size = 2], [try_emplace(A)]
    succeeds, a following [try_emplace(B)] fails on a full queue,
    [try_pop] then hands out [A], and a second [try_pop] fails on an empty
    queue; the same holds whichever overload makes each push. *)
Theorem min_size_round_trip {T : Type} (T_default : T) (moved_from : T -> T)
    (A B item item' : T) (by_move1 by_move2 : bool) :
  let q0 := SPSCRing_new T_default 2 in
  let q1 := snd (try_emplace 2 A q0) in
  let q2 := snd (try_emplace 2 B q1) in
  let q3 := snd (try_pop T_default moved_from 2 item q2) in
  fst (try_emplace 2 A q0) = true /\
  full 2 q1 = true /\
  fst (try_emplace 2 B q1) = false /\
  fst (try_pop T_default moved_from 2 item q2) = (true, A) /\
  empty q3 = true /\
  try_pop T_default moved_from 2 item' q3 = (false, item', q3) /\
  outcomes T_default moved_from 2
    [emplace_by (by_move1, A); emplace_by (by_move2, B); Pop item; Pop item']
    q0
  = [Accepted A; RejectedFull; Delivered A; NothingToPop].
Proof.
  cbv zeta. repeat split; try reflexivity.
  destruct by_move1, by_move2; reflexivity.
Qed.

(** The scenario of the specification with [Size = 4]. *)
Example scenario_Size4 :
  outcomes 0%nat (fun x => x) 4
    [Emplace 1; Emplace 2; Emplace 3; Emplace 4; Pop 0; Emplace 4;
     Pop 0; Pop 0; Pop 0; Pop 0]%nat
    (SPSCRing_new 0%nat 4)
  = [Accepted 1; Accepted 2; Accepted 3; RejectedFull; Delivered 1;
     Accepted 4; Delivered 2; Delivered 3; Delivered 4; NothingToPop]%nat.
Proof. reflexivity. Qed.

(** ** Instances

    The theorems above at [T = nat] (a trivially copyable type: moving
    leaves the source as it is) and [Size = 4]. *)

Lemma fifo_order_witness :
  (Z.land 4 (4 - 1) = 0 /\ 2 <= 4 /\ 4 < word_modulus) /\
  let ops := [Emplace 1; Emplace 2; EmplaceMove 3; Emplace 4; Pop 0;
              Emplace 5]%nat in
  let tr := outcomes 0%nat (fun x => x) 4 ops (SPSCRing_new 0%nat 4) in
  let q := final 0%nat (fun x => x) 4 ops (SPSCRing_new 0%nat 4) in
  let drained := ops ++ replicate (Z.to_nat (size 4 q)) (Pop 0%nat) in
  accepted tr = delivered tr ++ contents 0%nat 4 q /\
  (empty q = true -> delivered tr = accepted tr) /\
  accepted (outcomes 0%nat (fun x => x) 4 drained (SPSCRing_new 0%nat 4))
    = accepted tr /\
  delivered (outcomes 0%nat (fun x => x) 4 drained (SPSCRing_new 0%nat 4))
    = accepted tr.
Proof.
  split; [split; [reflexivity|split; [lia|reflexivity]]|].
  apply (fifo_order 0%nat (fun x => x) 4); [reflexivity|lia|reflexivity].
Defined.

Lemma capacity_boundary_witness :
  (Z.land 4 (4 - 1) = 0 /\ 2 <= 4 /\ 4 < word_modulus) /\
  Z.of_nat (length [(false, 1); (true, 2); (false, 3)]%nat) = 4 - 1 /\
  outcomes 0%nat (fun x => x) 4
    [Emplace 1; EmplaceMove 2; Emplace 3; Emplace 4; Pop 0; EmplaceMove 5;
     Emplace 6]%nat
    (SPSCRing_new 0%nat 4)
  = [Accepted 1; Accepted 2; Accepted 3; RejectedFull; Delivered 1;
     Accepted 5; RejectedFull]%nat /\
  capacity 4 (SPSCRing_new 0%nat 4) = 4 - 1.
Proof.
  split; [split; [reflexivity|split; [lia|reflexivity]]|].
  split; [reflexivity|].
  apply (capacity_boundary 0%nat (fun x => x) 4 eq_refl ltac:(lia) eq_refl
           (false, 1%nat) [(true, 2%nat); (false, 3%nat)]
           (false, 4%nat) (true, 5%nat) (false, 6%nat) 0%nat).
  reflexivity.
Defined.

Lemma empty_pop_unchanged_witness :
  (Z.land 4 (4 - 1) = 0 /\ 2 <= 4 /\ 4 < word_modulus) /\
  let q := mkRing 2 2 [1; 2; 0; 0]%nat 2 2 0 in
  head_ q = tail_ q /\
  try_pop 0%nat (fun x => x) 4 7%nat q = (false, 7%nat, q).
Proof.
  split; [split; [reflexivity|split; [lia|reflexivity]]|].
  cbv zeta. split; [reflexivity|].
  apply (proj1 (empty_pop_unchanged 0%nat (fun x => x) 4
                  eq_refl ltac:(lia) eq_refl 7%nat)).
  reflexivity.
Defined.

Lemma full_push_counts_witness :
  (Z.land 4 (4 - 1) = 0 /\ 2 <= 4 /\ 4 < word_modulus) /\
  let q := mkRing 3 0 [1; 2; 3; 0]%nat 3 0 0 in
  let q' := mkRing 3 0 [1; 2; 3; 0]%nat 3 0 1 in
  (head_ q + 1) mod 4 = tail_ q /\
  try_emplace 4 9%nat q = (false, q') /\
  try_emplace_move (fun x => x) 4 9%nat q = (false, 9%nat, q') /\
  (0 <= failed_pushes q < word_modulus - 1 ->
   failed_pushes q' = failed_pushes q + 1).
Proof.
  split; [split; [reflexivity|split; [lia|reflexivity]]|].
  cbv zeta. split; [reflexivity|].
  apply (full_push_counts (fun x => x) 4 eq_refl ltac:(lia) eq_refl
           9%nat (mkRing 3 0 [1; 2; 3; 0]%nat 3 0 0)).
  reflexivity.
Defined.

Lemma counter_consistency_witness :
  (Z.land 4 (4 - 1) = 0 /\ 2 <= 4 /\ 4 < word_modulus) /\
  let ops := [Emplace 1; Emplace 2; Emplace 3; Emplace 4; Pop 0;
              EmplaceMove 5]%nat in
  emplace_calls ops < word_modulus /\
  let q := final 0%nat (fun x => x) 4 ops (SPSCRing_new 0%nat 4) in
  total_pops q <= total_pushes q /\
  total_pushes q + failed_pushes q = emplace_calls ops /\
  forall ops1 ops2, ops = ops1 ++ ops2 ->
    total_pushes (final 0%nat (fun x => x) 4 ops1 (SPSCRing_new 0%nat 4))
      <= total_pushes q /\
    total_pops (final 0%nat (fun x => x) 4 ops1 (SPSCRing_new 0%nat 4))
      <= total_pops q /\
    failed_pushes (final 0%nat (fun x => x) 4 ops1 (SPSCRing_new 0%nat 4))
      <= failed_pushes q.
Proof.
  split; [split; [reflexivity|split; [lia|reflexivity]]|].
  cbv zeta. split; [reflexivity|].
  apply (counter_consistency 0%nat (fun x => x) 4 eq_refl ltac:(lia) eq_refl).
  reflexivity.
Defined.

Lemma index_range_witness :
  (Z.land 4 (4 - 1) = 0 /\ 2 <= 4 /\ 4 < word_modulus) /\
  let ops := [Emplace 1; Emplace 2; Emplace 3; Pop 0; Emplace 4; Emplace 5;
              Pop 0]%nat in
  let q := final 0%nat (fun x => x) 4 ops (SPSCRing_new 0%nat 4) in
  0 <= head_ q < 4 /\ 0 <= tail_ q < 4.
Proof.
  split; [split; [reflexivity|split; [lia|reflexivity]]|].
  apply (index_range 0%nat (fun x => x) 4); [reflexivity|lia|reflexivity].
Defined.

Lemma status_queries_witness :
  (Z.land 4 (4 - 1) = 0 /\ 2 <= 4 /\ 4 < word_modulus) /\
  let q := mkRing 3 0 [1; 2; 3; 0]%nat 3 0 0 in
  let ops := [Pop 0; Emplace 4; Emplace 5]%nat in
  (empty q = true <-> head_ q = tail_ q) /\
  (full 4 q = true <-> (head_ q + 1) mod 4 = tail_ q) /\
  capacity 4 q = 4 - 1 /\
  capacity 4 (final 0%nat (fun x => x) 4 ops q) = 4 - 1.
Proof.
  split; [split; [reflexivity|split; [lia|reflexivity]]|].
  apply (status_queries 0%nat (fun x => x) 4); [reflexivity|lia|reflexivity].
Defined.

Lemma size_counts_witness :
  (Z.land 4 (4 - 1) = 0 /\ 2 <= 4 /\ 4 < word_modulus) /\
  let ops := [Emplace 1; Emplace 2; Emplace 3; Emplace 4; Pop 0;
              EmplaceMove 5]%nat in
  let q := final 0%nat (fun x => x) 4 ops (SPSCRing_new 0%nat 4) in
  let tr := outcomes 0%nat (fun x => x) 4 ops (SPSCRing_new 0%nat 4) in
  size 4 q = (head_ q - tail_ q) mod 4 /\
  size 4 q = wrap (total_pushes q - total_pops q) /\
  (total_pops q <= total_pushes q ->
   size 4 q = total_pushes q - total_pops q) /\
  (emplace_calls ops < word_modulus ->
   size 4 q = total_pushes q - total_pops q) /\
  size 4 q = Z.of_nat (length (contents 0%nat 4 q)) /\
  size 4 q
    = Z.of_nat (length (accepted tr)) - Z.of_nat (length (delivered tr)) /\
  0 <= size 4 q <= capacity 4 q.
Proof.
  split; [split; [reflexivity|split; [lia|reflexivity]]|].
  apply (size_counts 0%nat (fun x => x) 4); [reflexivity|lia|reflexivity].
Defined.

(** C6 as the specification words it fails once a counter has wrapped:
    on a queue with [Size = 2], after [2^64 - 1] push/pop round trips and
    one more push, the push counter is below the pop counter, the push and
    failed-push counters add up to less than the number of [try_emplace]
    calls, and the push counter is below its value one call earlier. *)
Lemma counter_consistency_counterexample :
  let ops := overflow_client 0%nat in
  let before := final 0%nat (fun x => x) 2
                  (round_trips (Z.to_nat (word_modulus - 1)) 0%nat)
                  (SPSCRing_new 0%nat 2) in
  let q := final 0%nat (fun x => x) 2 ops (SPSCRing_new 0%nat 2) in
  total_pushes q < total_pops q /\
  total_pushes q + failed_pushes q < emplace_calls ops /\
  total_pushes q < total_pushes before.
Proof.
  cbv zeta. unfold overflow_client.
  destruct (counters_wrap 0%nat (fun x => x) 2 eq_refl ltac:(lia) eq_refl
              (Z.to_nat (word_modulus - 1)) 0%nat)
    as (Hb & Hp & Hq & Hf & Hc).
  { apply Z2Nat.id. unfold word_modulus. lia. }
  rewrite Hb, Hp, Hq, Hf, Hc. repeat split.
Qed.

(** ** Further instances, at [T = nat] and [Size = 4] *)

Lemma ring_refines_fifo_witness :
  (Z.land 4 (4 - 1) = 0 /\ 2 <= 4 /\ 4 < word_modulus) /\
  let ops := [Emplace 1; Pop 0; Pop 0; Emplace 2; EmplaceMove 3; Emplace 4;
              Emplace 5; Pop 0]%nat in
  outcomes 0%nat (fun x => x) 4 ops (SPSCRing_new 0%nat 4)
    = fst (fifo_run 4 ops []) /\
  contents 0%nat 4 (final 0%nat (fun x => x) 4 ops (SPSCRing_new 0%nat 4))
    = snd (fifo_run 4 ops []).
Proof.
  split; [split; [reflexivity|split; [lia|reflexivity]]|].
  apply (ring_refines_fifo 0%nat (fun x => x) 4);
    [reflexivity|lia|reflexivity].
Defined.

Lemma status_consistent_witness :
  (Z.land 4 (4 - 1) = 0 /\ 2 <= 4 /\ 4 < word_modulus) /\
  let q := mkRing 3 0 [1; 2; 3; 0]%nat 3 0 0 in
  let ops := [Emplace 1; Emplace 2; Emplace 3]%nat in
  let r := final 0%nat (fun x => x) 4 ops (SPSCRing_new 0%nat 4) in
  empty q && full 4 q = false /\
  fst (try_emplace 4 9%nat q) = negb (full 4 q) /\
  fst (fst (try_pop 0%nat (fun x => x) 4 9%nat q)) = negb (empty q) /\
  (empty r = true <-> size 4 r = 0) /\
  (full 4 r = true <-> size 4 r = capacity 4 r).
Proof.
  split; [split; [reflexivity|split; [lia|reflexivity]]|].
  apply (status_consistent 0%nat (fun x => x) 4);
    [reflexivity|lia|reflexivity].
Defined.

Lemma push_pop_commute_witness :
  (Z.land 4 (4 - 1) = 0 /\ 2 <= 4 /\ 4 < word_modulus) /\
  let q := mkRing 0 3 [5; 0; 0; 4]%nat 5 3 0 in
  (0 <= head_ q < 4 /\ 0 <= tail_ q < 4 /\
   empty q = false /\ full 4 q = false) /\
  fst (try_emplace 4 6%nat q) = true /\
  fst (try_pop 0%nat (fun x => x) 4 0%nat q)
    = (true, slot 0%nat (buffer_ q) (tail_ q)) /\
  fst (try_pop 0%nat (fun x => x) 4 0%nat (snd (try_emplace 4 6%nat q)))
    = fst (try_pop 0%nat (fun x => x) 4 0%nat q) /\
  fst (try_emplace 4 6%nat (snd (try_pop 0%nat (fun x => x) 4 0%nat q)))
    = true /\
  snd (try_pop 0%nat (fun x => x) 4 0%nat (snd (try_emplace 4 6%nat q)))
    = snd (try_emplace 4 6%nat (snd (try_pop 0%nat (fun x => x) 4 0%nat q))).
Proof.
  split; [split; [reflexivity|split; [lia|reflexivity]]|].
  cbv zeta. split; [cbn; split_and!; try reflexivity; lia|].
  apply (push_pop_commute 0%nat (fun x => x) 4 eq_refl ltac:(lia) eq_refl
           6%nat 0%nat (mkRing 0 3 [5; 0; 0; 4]%nat 5 3 0));
    cbn; try reflexivity; lia.
Defined.

Lemma free_room_witness :
  (Z.land 4 (4 - 1) = 0 /\ 2 <= 4 /\ 4 < word_modulus) /\
  let ops := [Emplace 1; Emplace 2; Pop 0; Emplace 3; Pop 0]%nat in
  let q := final 0%nat (fun x => x) 4 ops (SPSCRing_new 0%nat 4) in
  let calls := [(false, 4); (true, 5)]%nat in
  Z.of_nat (length calls) = capacity 4 q - size 4 q /\
  outcomes 0%nat (fun x => x) 4
    ((emplace_by <$> calls) ++ [emplace_by (false, 6%nat)]) q
  = ((fun c => Accepted (snd c)) <$> calls) ++ [RejectedFull].
Proof.
  split; [split; [reflexivity|split; [lia|reflexivity]]|].
  cbv zeta. split; [reflexivity|].
  apply (free_room 0%nat (fun x => x) 4 eq_refl ltac:(lia) eq_refl).
  reflexivity.
Defined.

Lemma drain_backlog_witness :
  (Z.land 4 (4 - 1) = 0 /\ 2 <= 4 /\ 4 < word_modulus) /\
  let ops := [Emplace 1; Emplace 2; Pop 0; Emplace 3]%nat in
  let q := final 0%nat (fun x => x) 4 ops (SPSCRing_new 0%nat 4) in
  let pops := replicate (Z.to_nat (size 4 q)) (Pop 0%nat) ++ [Pop 0%nat] in
  outcomes 0%nat (fun x => x) 4 pops q
    = (Delivered <$> contents 0%nat 4 q) ++ [NothingToPop] /\
  empty (final 0%nat (fun x => x) 4 pops q) = true.
Proof.
  split; [split; [reflexivity|split; [lia|reflexivity]]|].
  apply (drain_backlog 0%nat (fun x => x) 4); [reflexivity|lia|reflexivity].
Defined.

Lemma indices_follow_counters_witness :
  (Z.land 4 (4 - 1) = 0 /\ 2 <= 4 /\ 4 < word_modulus) /\
  let ops := [Emplace 1; Emplace 2; Pop 0; Emplace 3; Pop 0; Emplace 4;
              Emplace 5; Emplace 6]%nat in
  let q := final 0%nat (fun x => x) 4 ops (SPSCRing_new 0%nat 4) in
  head_ q = total_pushes q mod 4 /\ tail_ q = total_pops q mod 4.
Proof.
  split; [split; [reflexivity|split; [lia|reflexivity]]|].
  apply (indices_follow_counters 0%nat (fun x => x) 4);
    [reflexivity|lia|reflexivity].
Defined.

(** ** [Types.h], [Types.cpp] *)

(** X8.  For every [size_t] value, [is_power_of_2] answers true exactly
    on the powers of two [2^0 .. 2^63]; zero is not one. *)
Theorem is_power_of_2_spec (n : Z) :
  0 <= n < word_modulus ->
  is_power_of_2 n = true <-> exists k, 0 <= k < 64 /\ n = 2 ^ k.
Proof.
  intros Hn. unfold is_power_of_2. rewrite andb_true_iff, Z.ltb_lt, Z.eqb_eq.
  split.
  - intros [Hpos Hland]. rewrite wrap_small in Hland by lia.
    exists (Z.log2 n). split; [|apply land_pred_pow2; assumption].
    split; [apply Z.log2_nonneg|].
    apply Z.log2_lt_pow2; [lia|apply Hn].
  - intros (k & Hk & ->).
    assert (Hp : 0 < 2 ^ k) by (apply Z.pow_pos_nonneg; lia).
    split; [exact Hp|]. rewrite wrap_small by lia.
    replace (2 ^ k - 1) with (Z.ones k) by (rewrite Z.ones_equiv; lia).
    rewrite Z.land_ones by lia. apply Z.mod_same. lia.
Qed.

Lemma is_power_of_2_spec_witness :
  0 <= Config.MESSAGE_RING_SIZE < word_modulus /\
  (is_power_of_2 Config.MESSAGE_RING_SIZE = true
   <-> exists k, 0 <= k < 64 /\ Config.MESSAGE_RING_SIZE = 2 ^ k).
Proof.
  split; [split; [discriminate|reflexivity]|].
  apply (is_power_of_2_spec Config.MESSAGE_RING_SIZE).
  split; [discriminate|reflexivity].
Defined.

Lemma message_code_cases (t : Z) :
  MessageType.ADD_ORDER <= t <= MessageType.HEARTBEAT ->
  t = 1 \/ t = 2 \/ t = 3 \/ t = 4 \/ t = 5 \/ t = 6.
Proof. unfold MessageType.ADD_ORDER, MessageType.HEARTBEAT. lia. Qed.

(** X9.  [message_type_to_string] gives the six message types six
    different names and answers "UNKNOWN" exactly for the codes that name
    no message type; [side_to_string] answers "BUY" exactly for
    [Side::BUY] and "SELL" for every other code. *)
Theorem enum_names (t1 t2 : Z) :
  (MessageType.ADD_ORDER <= t1 <= MessageType.HEARTBEAT ->
   MessageType.ADD_ORDER <= t2 <= MessageType.HEARTBEAT ->
   message_type_to_string t1 = message_type_to_string t2 -> t1 = t2) /\
  (message_type_to_string t1 = "UNKNOWN"%string
   <-> ~ MessageType.ADD_ORDER <= t1 <= MessageType.HEARTBEAT) /\
  (side_to_string t1 = "BUY"%string <-> t1 = Side.BUY) /\
  (t1 <> Side.BUY -> side_to_string t1 = "SELL"%string).
Proof.
  split_and!.
  - intros H1 H2.
    destruct (message_code_cases _ H1) as [->|[->|[->|[->|[->| ->]]]]];
      destruct (message_code_cases _ H2) as [->|[->|[->|[->|[->| ->]]]]];
      cbn; intros E; first [reflexivity|discriminate E].
  - unfold message_type_to_string, MessageType.ADD_ORDER,
      MessageType.CANCEL_ORDER, MessageType.MODIFY_ORDER,
      MessageType.EXECUTE_ORDER, MessageType.TRADE, MessageType.HEARTBEAT.
    repeat match goal with
           | |- context [t1 =? ?c] => destruct (Z.eqb_spec t1 c)
           end;
      (split; [intros E; first [discriminate E|lia]
              |intros E; first [reflexivity|lia]]).
  - unfold side_to_string. destruct (Z.eqb_spec t1 Side.BUY);
      (split; [intros E; first [assumption|discriminate E]
              |intros E; first [reflexivity|contradiction]]).
  - intros Hne. unfold side_to_string.
    destruct (Z.eqb_spec t1 Side.BUY); [contradiction|reflexivity].
Qed.

(** ** [TSCTimer.h], [TSCTimer.cpp] *)

(** X10.  The frequency [calibrate] keeps out of three measurements is
    one of them, does not depend on the order they were taken in, and
    lies in every interval that contains two of the three: one outlying
    measurement cannot move it past the other two. *)
Theorem median_of_three (f0 f1 f2 : Z) :
  let m := median_freq [f0; f1; f2] in
  (m = f0 \/ m = f1 \/ m = f2) /\
  median_freq [f1; f0; f2] = m /\
  median_freq [f0; f2; f1] = m /\
  forall lo hi,
    (lo <= f0 <= hi /\ lo <= f1 <= hi) \/
    (lo <= f0 <= hi /\ lo <= f2 <= hi) \/
    (lo <= f1 <= hi /\ lo <= f2 <= hi) ->
    lo <= m <= hi.
Proof.
  cbv zeta. unfold median_freq, std_sort.
  change (Z.to_nat (num_measurements / 2)) with 1%nat.
  cbn [foldr sort_insert].
  repeat match goal with
         | |- context [?a <=? ?b] => destruct (Z.leb_spec a b)
         end;
    cbn [sort_insert nth]; split_and!; try lia;
    repeat match goal with
           | |- context [?a <=? ?b] => destruct (Z.leb_spec a b)
           end;
    cbn [sort_insert nth]; lia.
Qed.

(** X11.  [elapsed_cycles] is the number of cycles the counter advanced
    since the start reading, also when the 64-bit counter wrapped around
    in between (fewer than [2^64] cycles apart). *)
Theorem elapsed_cycles_wraps (start_cycles d : Z) :
  0 <= start_cycles < word_modulus -> 0 <= d < word_modulus ->
  elapsed_cycles (wrap (start_cycles + d)) start_cycles = d.
Proof.
  intros Hs Hd. unfold elapsed_cycles, wrap.
  rewrite Zminus_mod_idemp_l.
  replace (start_cycles + d - start_cycles) with d by lia.
  apply Z.mod_small. exact Hd.
Qed.

Lemma elapsed_cycles_wraps_witness :
  (0 <= word_modulus - 5 < word_modulus /\ 0 <= 12 < word_modulus) /\
  wrap (word_modulus - 5 + 12) = 7 /\
  elapsed_cycles (wrap (word_modulus - 5 + 12)) (word_modulus - 5) = 12.
Proof.
  split; [split; (split; [discriminate|reflexivity])|].
  split; [reflexivity|].
  apply (elapsed_cycles_wraps (word_modulus - 5) 12);
    (split; [discriminate|reflexivity]).
Defined.

(** X12.  [is_tsc_available] answers by bit 4 of [EDX] alone: true when
    it is set, false when it is clear, whatever the other bits are. *)
Theorem is_tsc_available_bit (edx : Z) :
  is_tsc_available edx = Z.testbit edx 4.
Proof.
  unfold is_tsc_available. change (Z.shiftl 1 4) with (2 ^ 4).
  assert (E : Z.land edx (2 ^ 4) = if Z.testbit edx 4 then 2 ^ 4 else 0).
  { apply Z.bits_inj'. intros n Hn.
    rewrite Z.land_spec, Z.pow2_bits_eqb by lia.
    destruct (Z.eqb_spec 4 n) as [<-|Hne].
    - destruct (Z.testbit edx 4); [|reflexivity].
      rewrite Z.pow2_bits_true by lia. reflexivity.
    - rewrite andb_false_r. destruct (Z.testbit edx 4).
      + rewrite Z.pow2_bits_false by lia. reflexivity.
      + rewrite Z.bits_0. reflexivity. }
  rewrite E. destruct (Z.testbit edx 4); reflexivity.
Qed.
